(** * The energy-term framework of [src/lib/terms.h]

    A shallow embedding of the term taxonomy, the charge decomposition,
    the homogeneous registry [term_set<T>], the weighted [factors]
    container and the five-registry aggregate [terms], followed by the
    properties of these operations.

    Conventions of the embedding:
    - [fl] is an IEEE 754 binary floating-point number ([spec_float]); the
      typedef itself lives in common.h, so the format (precision and
      maximal exponent) is a parameter, instantiated by [binary64] and
      [binary32].  Every C++ [+] and [*] rounds once, to nearest even
      (no fused multiply-add, no extended intermediate precision).
    - [sz] and loop indices are [nat]; the [unsigned] weight of [add] is [N].
    - A term pointer handed to a registry is modelled by the term it points
      to; the registry stores the value it now owns.
    - [VINA_CHECK] is a macro of common.h; a use of it is kept as an
      event of the program, and its effect is given by a handler. *)

From Stdlib Require Import String ZArith Bool Lia PeanoNat List.
From Stdlib Require Import Floats.SpecFloat.
Import ListNotations.

Set Implicit Arguments.

(** ** Scalars *)

Definition fl : Type := spec_float.
Definition flv : Type := list fl.
Definition sz : Type := nat.

(** The floating-point format behind the typedef [fl]. *)
Class fl_format : Type := { prec : Z; emax : Z }.

Definition binary64 : fl_format := {| prec := 53; emax := 1024 |}.
Definition binary32 : fl_format := {| prec := 24; emax := 128 |}.

Definition fl_add {F : fl_format} (x y : fl) : fl := SFadd prec emax x y.
Definition fl_mul {F : fl_format} (x y : fl) : fl := SFmul prec emax x y.

(** The value [m * 2^e] rounded to the format; used for literals. *)
Definition fl_lit {F : fl_format} (m e : Z) : fl :=
  binary_normalize prec emax m e false.

(** A decimal literal [n/d], correctly rounded ([3.1] is [fl_dec 31 10]). *)
Definition fl_dec {F : fl_format} (n d : Z) : fl :=
  SFdiv prec emax (fl_lit n 0) (fl_lit d 0).

(** The literal [0] converted to [fl]. *)
Definition fl_zero : fl := S754_zero false.

Definition fl_ltb (x y : fl) : bool := SFltb x y.
Definition fl_leb (x y : fl) : bool := SFleb x y.

(** [std::max(a, b)] is [(a < b) ? b : a]. *)
Definition fl_max (a b : fl) : fl := if fl_ltb a b then b else a.

Declare Scope fl_scope.
Delimit Scope fl_scope with fl.
Infix "+" := fl_add : fl_scope.
Infix "*" := fl_mul : fl_scope.

(** ** Programs with checks

    [VINA_CHECK c k] is the statement [VINA_CHECK(c);] followed by [k];
    [Undef] is an access outside a sequence (undefined behaviour). *)

Inductive prog (A : Type) : Type :=
| Ret (a : A)
| VINA_CHECK (c : bool) (k : prog A)
| Undef.

Arguments Ret {A} a.
Arguments VINA_CHECK {A} c k.
Arguments Undef {A}.

Fixpoint bind {A B : Type} (p : prog A) (f : A -> prog B) : prog B :=
  match p with
  | Ret a => f a
  | VINA_CHECK c k => VINA_CHECK c (bind k f)
  | Undef => Undef
  end.

Notation "x <- p ;; q" := (bind p (fun x => q))
  (at level 61, p at next level, right associativity).

(** What a handler does with a failed check: stop the evaluation there
    (an exception or an abort), or record the signal and go on. *)
Inductive handler : Type := Fatal | Resume.

Record outcome (A : Type) : Type := {
  signals : nat;          (* failed checks raised *)
  value : option A        (* the value returned, if control came back *)
}.

Definition signal {A : Type} (o : outcome A) : outcome A :=
  {| signals := S (signals o); value := value o |}.

Fixpoint exec {A : Type} (h : handler) (p : prog A) : outcome A :=
  match p with
  | Ret a => {| signals := 0; value := Some a |}
  | VINA_CHECK true k => exec h k
  | VINA_CHECK false k =>
      match h with
      | Fatal => {| signals := 1; value := None |}
      | Resume => signal (exec h k)
      end
  | Undef => {| signals := 0; value := None |}
  end.

(** ** Term taxonomy *)

(** [struct term]: what every kind of term shares. *)
Record term : Type := { name : string }.

(** A position in a sequence of scalars: [flv::const_iterator]. *)
Record iterator : Type := { buf : flv; pos : nat }.

(** [*in]: reading at or past the end is undefined. *)
Definition deref (it : iterator) : prog fl :=
  match nth_error (buf it) (pos it) with
  | Some v => Ret v
  | None => Undef
  end.

(** [++in]: stepping an iterator that is already at the end is undefined. *)
Definition incr (it : iterator) : prog iterator :=
  if pos it <? length (buf it)
  then Ret {| buf := buf it; pos := S (pos it) |}
  else Undef.

Record conf_independent_inputs : Type := {
  num_tors : fl;
  num_rotors : fl;
  num_heavy_atoms : fl;
  num_hydrophobic_atoms : fl;
  ligand_max_num_h_bonds : fl;
  num_ligands : fl;
  ligand_lengths_sum : fl
}.

(** [charge_dependent::components] *)
Record components : Type := {
  type_dependent_only : fl;
  a_charge_dependent : fl;
  b_charge_dependent : fl;
  ab_charge_dependent : fl
}.

(** [components::operator+=(const components&)] *)
Definition components_add {F : fl_format} (c rhs : components) : components :=
  {| type_dependent_only := (type_dependent_only c + type_dependent_only rhs)%fl;
     a_charge_dependent := (a_charge_dependent c + a_charge_dependent rhs)%fl;
     b_charge_dependent := (b_charge_dependent c + b_charge_dependent rhs)%fl;
     ab_charge_dependent := (ab_charge_dependent c + ab_charge_dependent rhs)%fl |}.

(** [components::operator+=(fl)] *)
Definition components_add_fl {F : fl_format} (c : components) (val : fl)
  : components :=
  {| type_dependent_only := (type_dependent_only c + val)%fl;
     a_charge_dependent := a_charge_dependent c;
     b_charge_dependent := b_charge_dependent c;
     ab_charge_dependent := ab_charge_dependent c |}.

Section Taxonomy.
(** The atom type tag, the model and the atom index come from model.h. *)
Variables smt model atom_index : Type.

(** Modelled from the spec: [atom_base] is declared in a header that is not
    under src; it exposes a type tag [sm], a partial [charge] and the base
    projection [get], which keeps the type only. *)
Record atom_base : Type := { sm : smt; charge : fl }.

Definition get (a : atom_base) : smt := sm a.

(** Each kind is the record of its data members and virtual functions. *)
Record distance_additive : Type := {
  da_term : term;
  da_cutoff : fl;
  da_eval : atom_base -> atom_base -> fl -> prog fl
}.

Record charge_dependent : Type := {
  cd_term : term;
  cd_cutoff : fl;
  eval_components : smt -> smt -> fl -> components
}.

Record usable : Type := {
  u_term : term;
  u_cutoff : fl;
  u_eval_types : smt -> smt -> fl -> prog fl
}.

Record additive : Type := {
  ad_term : term;
  ad_cutoff : fl;
  ad_eval : model -> atom_index -> atom_index -> fl
}.

Record intermolecular : Type := {
  im_term : term;
  im_eval : model -> fl
}.

Record conf_independent : Type := {
  ci_term : term;
  ci_eval : conf_independent_inputs -> fl -> iterator -> fl * iterator;
  ci_size : sz
}.

(** [charge_dependent::eval] *)
Definition charge_dependent_eval {F : fl_format} (t : charge_dependent)
    (a b : atom_base) (r : fl) : fl :=
  let c := eval_components t (sm a) (sm b) r in
  (type_dependent_only c
   + charge a * a_charge_dependent c
   + charge b * b_charge_dependent c
   + charge a * charge b * ab_charge_dependent c)%fl.

(** [usable::eval(smt, smt, fl)], the default of the two-type contract. *)
Definition usable_eval_types_default (t1 t2 : smt) (r : fl) : prog fl :=
  VINA_CHECK false (Ret fl_zero).

(** [usable::eval(const atom_base&, const atom_base&, fl)] *)
Definition usable_eval (u : usable) (a b : atom_base) (r : fl) : prog fl :=
  u_eval_types u (get a) (get b) r.

(** A usable term that does not override the two-type contract. *)
Definition usable_base (n : string) (cutoff_ : fl) : usable :=
  {| u_term := {| name := n |};
     u_cutoff := cutoff_;
     u_eval_types := usable_eval_types_default |}.

(** The two refinements seen through their base class. *)
Definition charge_dependent_base {F : fl_format} (t : charge_dependent)
  : distance_additive :=
  {| da_term := cd_term t;
     da_cutoff := cd_cutoff t;
     da_eval := fun a b r => Ret (charge_dependent_eval t a b r) |}.

Definition usable_as_distance_additive (u : usable) : distance_additive :=
  {| da_term := u_term u;
     da_cutoff := u_cutoff u;
     da_eval := usable_eval u |}.

End Taxonomy.

(** What the registry template reads from a term: [fun[i].name] and
    [fun[i].cutoff]. *)
Class Named (T : Type) : Type := name_of : T -> string.
Class HasCutoff (T : Type) : Type := cutoff_of : T -> fl.

#[export] Instance distance_additive_named smt : Named (distance_additive smt) :=
  fun t => name (da_term t).
#[export] Instance usable_named smt : Named (usable smt) :=
  fun t => name (u_term t).
#[export] Instance additive_named model atom_index
  : Named (additive model atom_index) :=
  fun t => name (ad_term t).
#[export] Instance intermolecular_named model : Named (intermolecular model) :=
  fun t => name (im_term t).
#[export] Instance conf_independent_named : Named conf_independent :=
  fun t => name (ci_term t).

#[export] Instance distance_additive_cutoff smt
  : HasCutoff (distance_additive smt) :=
  fun t => da_cutoff t.
#[export] Instance usable_cutoff smt : HasCutoff (usable smt) :=
  fun t => u_cutoff t.
#[export] Instance additive_cutoff model atom_index
  : HasCutoff (additive model atom_index) :=
  fun t => ad_cutoff t.

(** ** The registry [term_set<T>] *)

Record term_set (T : Type) : Type := {
  enabled : list bool;
  fun_ : list T
}.

Section Registry.
Context {T : Type}.

(** A default-constructed registry. *)
Definition term_set_new : term_set T := {| enabled := []; fun_ := [] |}.

(** [term_set::add] *)
Definition term_set_add (e : N) (f : T) (ts : term_set T) : term_set T :=
  {| enabled := enabled ts ++ [(0 <? e)%N];
     fun_ := fun_ ts ++ [f] |}.

(** [term_set::num_enabled] *)
Definition term_set_num_enabled (ts : term_set T) : sz :=
  fold_left (fun tmp b => if b : bool then S tmp else tmp) (enabled ts) 0.

(** [term_set::size] and [term_set::operator[]] *)
Definition term_set_size (ts : term_set T) : sz := length (fun_ ts).

Definition term_set_at (ts : term_set T) (i : sz) : prog T :=
  match nth_error (fun_ ts) i with
  | Some f => Ret f
  | None => Undef
  end.

(** The loop of [get_names], from index [i] on; [fs] is what is left of
    [fun].  [enabled[i]] is read only when [enabled_only] is set. *)
Fixpoint get_names_loop `{Named T} (enabled_only : bool) (en : list bool)
    (fs : list T) (i : sz) (out : list string) : prog (list string) :=
  match fs with
  | [] => Ret out
  | f :: fs' =>
      if negb enabled_only
      then get_names_loop enabled_only en fs' (S i) (out ++ [name_of f])
      else
        match nth_error en i with
        | Some b =>
            get_names_loop enabled_only en fs' (S i)
              (if b then out ++ [name_of f] else out)
        | None => Undef
        end
  end.

(** [term_set::get_names] *)
Definition term_set_get_names `{Named T} (ts : term_set T)
    (enabled_only : bool) (out : list string) : prog (list string) :=
  VINA_CHECK (length (enabled ts) =? length (fun_ ts))
    (get_names_loop enabled_only (enabled ts) (fun_ ts) 0 out).

(** The loop of [filter] over what is left of [enabled]. *)
Fixpoint filter_loop (en : list bool) (in_ : iterator) (out : flv)
  : prog (iterator * flv) :=
  match en with
  | [] => Ret (in_, out)
  | b :: en' =>
      out' <- (if b then v <- deref in_ ;; Ret (out ++ [v]) else Ret out) ;;
      in' <- incr in_ ;;
      filter_loop en' in' out'
  end.

(** [term_set::filter] *)
Definition term_set_filter (ts : term_set T) (in_ : iterator) (out : flv)
  : prog (iterator * flv) :=
  VINA_CHECK (length (enabled ts) =? length (fun_ ts))
    (filter_loop (enabled ts) in_ out).

(** [term_set::max_cutoff] *)
Definition term_set_max_cutoff `{HasCutoff T} (ts : term_set T) : fl :=
  fold_left (fun tmp f => fl_max tmp (cutoff_of f)) (fun_ ts) fl_zero.

End Registry.

(** ** The weighted container [factors] *)

Record factors : Type := { e : flv; i : flv }.

Definition factors_size (f : factors) : sz := length (e f) + length (i f).

(** [factors::num_weights] *)
Definition factors_num_weights (f : factors) : sz :=
  if length (i f) <? length (e f) then length (e f) else length (i f).

(** One group against the weights: [tmp += g[k] * weights[k]] for every
    position [k] of [g]. *)
Fixpoint weighted_sum {F : fl_format} (g weights : flv) (k : sz) (tmp : fl)
  : prog fl :=
  match g with
  | [] => Ret tmp
  | x :: g' =>
      match nth_error weights k with
      | Some w => weighted_sum g' weights (S k) (tmp + x * w)%fl
      | None => Undef
      end
  end.

(** Modelled from the spec: [factors::eval] is only declared in terms.h, its
    body is not under src.  The weight vector must have [num_weights()]
    entries or the evaluation fails; it sums [e[k]*weights[k]] for all [k],
    and adds the sum of [i[k]*weights[k]] only if [include_internal] is
    set. *)
Definition factors_eval {F : fl_format} (f : factors) (weights : flv)
    (include_internal : bool) : prog fl :=
  VINA_CHECK (factors_num_weights f <=? length weights)
    (se <- weighted_sum (e f) weights 0 fl_zero ;;
     if include_internal
     then si <- weighted_sum (i f) weights 0 fl_zero ;; Ret (se + si)%fl
     else Ret se).

(** ** The aggregate [terms] *)

Section Aggregate.
Variables smt model atom_index : Type.

Record terms : Type := {
  distance_additive_terms : term_set (distance_additive smt);
  usable_terms : term_set (usable smt);
  additive_terms : term_set (additive model atom_index);
  intermolecular_terms : term_set (intermolecular model);
  conf_independent_terms : term_set conf_independent
}.

(** The five overloads of [terms::add]. *)
Definition terms_add_distance_additive (e : N) (p : distance_additive smt)
    (t : terms) : terms :=
  {| distance_additive_terms := term_set_add e p (distance_additive_terms t);
     usable_terms := usable_terms t;
     additive_terms := additive_terms t;
     intermolecular_terms := intermolecular_terms t;
     conf_independent_terms := conf_independent_terms t |}.

Definition terms_add_usable (e : N) (p : usable smt) (t : terms) : terms :=
  {| distance_additive_terms := distance_additive_terms t;
     usable_terms := term_set_add e p (usable_terms t);
     additive_terms := additive_terms t;
     intermolecular_terms := intermolecular_terms t;
     conf_independent_terms := conf_independent_terms t |}.

Definition terms_add_additive (e : N) (p : additive model atom_index)
    (t : terms) : terms :=
  {| distance_additive_terms := distance_additive_terms t;
     usable_terms := usable_terms t;
     additive_terms := term_set_add e p (additive_terms t);
     intermolecular_terms := intermolecular_terms t;
     conf_independent_terms := conf_independent_terms t |}.

Definition terms_add_intermolecular (e : N) (p : intermolecular model)
    (t : terms) : terms :=
  {| distance_additive_terms := distance_additive_terms t;
     usable_terms := usable_terms t;
     additive_terms := additive_terms t;
     intermolecular_terms := term_set_add e p (intermolecular_terms t);
     conf_independent_terms := conf_independent_terms t |}.

Definition terms_add_conf_independent (e : N) (p : conf_independent)
    (t : terms) : terms :=
  {| distance_additive_terms := distance_additive_terms t;
     usable_terms := usable_terms t;
     additive_terms := additive_terms t;
     intermolecular_terms := intermolecular_terms t;
     conf_independent_terms := term_set_add e p (conf_independent_terms t) |}.

(** The static kind of the pointer given to [add]. *)
Inductive term_ptr : Type :=
| PDistanceAdditive (p : distance_additive smt)
| PUsable (p : usable smt)
| PAdditive (p : additive model atom_index)
| PIntermolecular (p : intermolecular model)
| PConfIndependent (p : conf_independent).

(** Overload resolution of [terms::add]. *)
Definition terms_add (e : N) (p : term_ptr) (t : terms) : terms :=
  match p with
  | PDistanceAdditive q => terms_add_distance_additive e q t
  | PUsable q => terms_add_usable e q t
  | PAdditive q => terms_add_additive e q t
  | PIntermolecular q => terms_add_intermolecular e q t
  | PConfIndependent q => terms_add_conf_independent e q t
  end.

End Aggregate.

(** A sequence of [add] calls, oldest first. *)
Definition term_set_adds {T : Type} (calls : list (N * T)) (ts : term_set T)
  : term_set T :=
  fold_left (fun acc c => term_set_add (fst c) (snd c) acc) calls ts.

(** The values of [vals] that stand at the positions where [en] is set. *)
Definition select {A : Type} (en : list bool) (vals : list A) : list A :=
  map snd (filter fst (combine en vals)).

(** Sum of the products [g[k] * weights[k]], accumulated from [0]. *)
Definition dot {F : fl_format} (g weights : flv) : fl :=
  fold_left (fun tmp xw => (tmp + fst xw * snd xw)%fl) (combine g weights)
    fl_zero.

Definition ok {A : Type} (a : A) : outcome A :=
  {| signals := 0; value := Some a |}.

(** ** Example data *)

Definition components_1234 {F : fl_format} : components :=
  {| type_dependent_only := fl_lit 1 0;
     a_charge_dependent := fl_lit 2 0;
     b_charge_dependent := fl_lit 3 0;
     ab_charge_dependent := fl_lit 4 0 |}.

(** A charge-dependent term with the same four coefficients everywhere. *)
Definition constant_term {F : fl_format} (c : components)
  : charge_dependent bool :=
  {| cd_term := {| name := "constant" |};
     cd_cutoff := fl_lit 8 0;
     eval_components := fun _ _ _ => c |}.

(** A usable term overriding the two-type contract: the distance for a
    pair of equal types, zero otherwise. *)
Definition same_type_term {F : fl_format} : usable bool :=
  {| u_term := {| name := "same_type" |};
     u_cutoff := fl_lit 8 0;
     u_eval_types := fun t1 t2 r => Ret (if Bool.eqb t1 t2 then r else fl_zero) |}.

Definition example_factors {F : fl_format} : factors :=
  {| e := [fl_lit 1 0; fl_lit 2 0]; i := [fl_lit 10 0; fl_lit 20 0] |}.

Definition example_weights {F : fl_format} : flv :=
  [fl_lit 1 0; fl_lit 1 (-1)].

(** Three usable terms with the cutoffs 2.0, 4.5 and 3.1; the second one
    is disabled. *)
Definition example_terms {F : fl_format} : list (usable bool) :=
  [usable_base bool "a" (fl_lit 2 0);
   usable_base bool "b" (fl_dec 45 10);
   usable_base bool "c" (fl_dec 31 10)].

Definition example_registry {F : fl_format} : term_set (usable bool) :=
  {| enabled := [true; false; true]; fun_ := example_terms |}.

(** A registry whose only term has a negative cutoff. *)
Definition negative_registry {F : fl_format} : term_set (usable bool) :=
  {| enabled := [true]; fun_ := [usable_base bool "n" (fl_lit (-1) 0)] |}.

(** Three values on which the order of two roundings shows: [2^p], [1], [1]
    for a precision of [p] bits. *)
Definition big_one_one {F : fl_format} : components * components * components :=
  let only v :=
    {| type_dependent_only := v;
       a_charge_dependent := fl_zero;
       b_charge_dependent := fl_zero;
       ab_charge_dependent := fl_zero |} in
  (only (fl_lit 1 prec), only (fl_lit 1 0), only (fl_lit 1 0)).

(** ** Further notions used in the statements *)

(** A zero or a finite number: neither an infinity nor NaN. *)
Definition fl_is_finite (x : fl) : bool :=
  match x with
  | S754_zero _ | S754_finite _ _ _ => true
  | _ => false
  end.

Definition fl_is_zero (x : fl) : bool :=
  match x with
  | S754_zero _ => true
  | _ => false
  end.

Definition fl_is_nan (x : fl) : bool :=
  match x with
  | S754_nan => true
  | _ => false
  end.

(** The four coefficients of a [components], in declaration order. *)
Definition coefficients (c : components) : flv :=
  [type_dependent_only c; a_charge_dependent c; b_charge_dependent c;
   ab_charge_dependent c].

(** A [components] with all four coefficients at [0]. *)
Definition components_zero : components :=
  {| type_dependent_only := fl_zero;
     a_charge_dependent := fl_zero;
     b_charge_dependent := fl_zero;
     ab_charge_dependent := fl_zero |}.

(** Whether a call of [add] enables its term. *)
Definition enabling {T : Type} (c : N * T) : bool := (0 <? fst c)%N.

Section AggregateSequences.
Variables smt model atom_index : Type.

(** A default-constructed aggregate. *)
Definition terms_new : terms smt model atom_index :=
  {| distance_additive_terms := term_set_new;
     usable_terms := term_set_new;
     additive_terms := term_set_new;
     intermolecular_terms := term_set_new;
     conf_independent_terms := term_set_new |}.

(** A sequence of [terms::add] calls, oldest first. *)
Definition terms_adds (calls : list (N * term_ptr smt model atom_index))
    (t : terms smt model atom_index) : terms smt model atom_index :=
  fold_left (fun acc c => terms_add (fst c) (snd c) acc) calls t.

Inductive term_kind : Type :=
| KDistanceAdditive | KUsable | KAdditive | KIntermolecular | KConfIndependent.

Definition kind_of (p : term_ptr smt model atom_index) : term_kind :=
  match p with
  | PDistanceAdditive _ _ _ => KDistanceAdditive
  | PUsable _ _ _ => KUsable
  | PAdditive _ _ => KAdditive
  | PIntermolecular _ _ _ => KIntermolecular
  | PConfIndependent _ _ _ _ => KConfIndependent
  end.

(** The calls of one kind among a sequence of calls, in order. *)
Definition distance_additive_calls
    (calls : list (N * term_ptr smt model atom_index))
  : list (N * distance_additive smt) :=
  flat_map (fun c => match snd c with
                     | PDistanceAdditive _ _ q => [(fst c, q)]
                     | _ => []
                     end) calls.

Definition usable_calls (calls : list (N * term_ptr smt model atom_index))
  : list (N * usable smt) :=
  flat_map (fun c => match snd c with
                     | PUsable _ _ q => [(fst c, q)]
                     | _ => []
                     end) calls.

Definition additive_calls (calls : list (N * term_ptr smt model atom_index))
  : list (N * additive model atom_index) :=
  flat_map (fun c => match snd c with
                     | PAdditive _ q => [(fst c, q)]
                     | _ => []
                     end) calls.

Definition intermolecular_calls
    (calls : list (N * term_ptr smt model atom_index))
  : list (N * intermolecular model) :=
  flat_map (fun c => match snd c with
                     | PIntermolecular _ _ q => [(fst c, q)]
                     | _ => []
                     end) calls.

Definition conf_independent_calls
    (calls : list (N * term_ptr smt model atom_index))
  : list (N * conf_independent) :=
  flat_map (fun c => match snd c with
                     | PConfIndependent _ _ _ q => [(fst c, q)]
                     | _ => []
                     end) calls.

End AggregateSequences.

(** A registry whose flags and terms went out of step. *)
Definition broken_registry {F : fl_format} : term_set (usable bool) :=
  {| enabled := [true]; fun_ := example_terms |}.

(** An intermolecular term and an additive term over a model with no
    content. *)
Definition example_intermolecular : intermolecular unit :=
  {| im_term := {| name := "inter" |}; im_eval := fun _ => fl_zero |}.

Definition example_additive {F : fl_format} : additive unit unit :=
  {| ad_term := {| name := "add" |};
     ad_cutoff := fl_lit 8 0;
     ad_eval := fun _ _ _ => fl_zero |}.

(** * Properties *)

(** ** Programs *)

Lemma exec_bind_ok {A B : Type} (h : handler) (p : prog A) (f : A -> prog B)
    (a : A) :
  exec h p = ok a -> exec h (bind p f) = exec h (f a).
Proof.
  induction p as [x | c k IH | ]; simpl; intros Hp.
  - inversion Hp; reflexivity.
  - destruct c; [auto |].
    destruct h; [discriminate | inversion Hp].
  - discriminate.
Qed.

Lemma exec_Ret {A : Type} (h : handler) (a : A) : exec h (Ret a) = ok a.
Proof. reflexivity. Qed.

(** ** Charge decomposition *)

(** C1: the value of a charge-dependent term on a pair of atoms is
    [c.type_only + qa*c.a_charge + qb*c.b_charge + qa*qb*c.ab_charge] for
    the components [c] of the two atom types at that distance; with the
    components 1, 2, 3, 4 and the charges 0.5 and -1 it is -3, in double
    and in single precision. *)
Theorem charge_dependent_eval_decomposition :
  (forall (F : fl_format) (smt : Type) (t : charge_dependent smt)
          (a b : atom_base smt) (r : fl),
      let c := eval_components t (sm a) (sm b) r in
      let qa := charge a in
      let qb := charge b in
      charge_dependent_eval t a b r =
      fl_add (fl_add (fl_add (type_dependent_only c)
                             (fl_mul qa (a_charge_dependent c)))
                     (fl_mul qb (b_charge_dependent c)))
             (fl_mul (fl_mul qa qb) (ab_charge_dependent c)))
  /\ Forall (fun F : fl_format =>
       forall (smt : Type) (t : charge_dependent smt) (a b : atom_base smt)
              (r : fl),
         eval_components t (sm a) (sm b) r = components_1234 ->
         charge a = fl_lit 1 (-1) ->
         charge b = fl_lit (-1) 0 ->
         charge_dependent_eval t a b r = fl_lit (-3) 0)
       [binary64; binary32].
Proof.
  split.
  - reflexivity.
  - repeat constructor; intros smt t a b r Hc Ha Hb;
      unfold charge_dependent_eval; rewrite Hc, Ha, Hb;
      vm_compute; reflexivity.
Qed.

Section DecompositionExample.
#[local] Existing Instance binary64.

Lemma charge_dependent_eval_decomposition_witness :
  charge_dependent_eval (constant_term components_1234)
    {| sm := true; charge := fl_lit 1 (-1) |}
    {| sm := false; charge := fl_lit (-1) 0 |} (fl_lit 5 0)
  = fl_lit (-3) 0.
Proof.
  destruct charge_dependent_eval_decomposition as [_ Hex].
  apply Forall_inv in Hex.
  apply Hex; reflexivity.
Defined.

End DecompositionExample.

(** Floating-point addition does not depend on the order of its operands. *)
Lemma fl_add_comm {F : fl_format} (x y : fl) : fl_add x y = fl_add y x.
Proof.
  unfold fl_add.
  destruct x as [sx | sx | | sx mx ex], y as [sy | sy | | sy my ey];
    try reflexivity;
    try (destruct sx, sy; reflexivity).
  unfold SFadd.
  rewrite (Z.min_comm ey ex).
  rewrite Z.add_comm.
  reflexivity.
Qed.

Lemma components_add_comm {F : fl_format} (x y : components) :
  components_add x y = components_add y x.
Proof.
  unfold components_add.
  rewrite (fl_add_comm (type_dependent_only x)),
          (fl_add_comm (a_charge_dependent x)),
          (fl_add_comm (b_charge_dependent x)),
          (fl_add_comm (ab_charge_dependent x)).
  reflexivity.
Qed.

(** C8, as stated, fails: in double and in single precision there are
    components [x], [y], [z] with [(x+y)+z] different from [x+(y+z)]. *)
Lemma components_add_not_associative :
  ~ (forall x y z : components,
       @components_add binary64 x y = @components_add binary64 y x
       /\ @components_add binary64 (@components_add binary64 x y) z
          = @components_add binary64 x (@components_add binary64 y z))
  /\ ~ (forall x y z : components,
       @components_add binary32 x y = @components_add binary32 y x
       /\ @components_add binary32 (@components_add binary32 x y) z
          = @components_add binary32 x (@components_add binary32 y z)).
Proof.
  split; intros H.
  - destruct (H (fst (fst (@big_one_one binary64)))
                (snd (fst (@big_one_one binary64)))
                (snd (@big_one_one binary64))) as [_ Hassoc].
    apply (f_equal type_dependent_only) in Hassoc.
    vm_compute in Hassoc. discriminate Hassoc.
  - destruct (H (fst (fst (@big_one_one binary32)))
                (snd (fst (@big_one_one binary32)))
                (snd (@big_one_one binary32))) as [_ Hassoc].
    apply (f_equal type_dependent_only) in Hassoc.
    vm_compute in Hassoc. discriminate Hassoc.
Qed.

(** C8 (amended): combining two components adds the four coefficients
    elementwise with the rounding addition of [fl], which makes the
    combination commutative; combining a plain scalar adds it to the
    type-only slot and leaves the three charge-scaled slots unchanged. *)
Theorem components_add_elementwise_comm :
  forall (F : fl_format) (x y : components) (val : fl),
    type_dependent_only (components_add x y)
      = fl_add (type_dependent_only x) (type_dependent_only y)
    /\ a_charge_dependent (components_add x y)
      = fl_add (a_charge_dependent x) (a_charge_dependent y)
    /\ b_charge_dependent (components_add x y)
      = fl_add (b_charge_dependent x) (b_charge_dependent y)
    /\ ab_charge_dependent (components_add x y)
      = fl_add (ab_charge_dependent x) (ab_charge_dependent y)
    /\ components_add x y = components_add y x
    /\ type_dependent_only (components_add_fl x val)
      = fl_add (type_dependent_only x) val
    /\ a_charge_dependent (components_add_fl x val) = a_charge_dependent x
    /\ b_charge_dependent (components_add_fl x val) = b_charge_dependent x
    /\ ab_charge_dependent (components_add_fl x val) = ab_charge_dependent x.
Proof.
  intros F x y val.
  repeat split; try reflexivity.
  apply components_add_comm.
Qed.

(** ** The usable contract *)

(** C6: the default two-type evaluation of a usable term first raises the
    failure signal, and only then returns the sentinel 0: one signal is
    raised under every handler, a handler that stops the evaluation gets no
    value, and a handler that lets it go on gets 0. *)
Theorem usable_default_raises_then_zero :
  forall (smt : Type) (n : string) (cutoff_ : fl) (t1 t2 : smt)
         (a b : atom_base smt) (r : fl) (h : handler),
    usable_eval_types_default t1 t2 r = VINA_CHECK false (Ret fl_zero)
    /\ usable_eval (usable_base smt n cutoff_) a b r = VINA_CHECK false (Ret fl_zero)
    /\ signals (exec h (usable_eval (usable_base smt n cutoff_) a b r)) = 1
    /\ exec Fatal (usable_eval (usable_base smt n cutoff_) a b r)
       = {| signals := 1; value := None |}
    /\ exec Resume (usable_eval (usable_base smt n cutoff_) a b r)
       = {| signals := 1; value := Some fl_zero |}.
Proof.
  intros smt n cutoff_ t1 t2 a b r h.
  repeat split; try reflexivity.
  destruct h; reflexivity.
Qed.

(** C10: the atom-pair evaluation of a usable term reads the two atom
    types only, so two pairs of atoms with the same types get the same
    result at the same distance, whatever their charges. *)
Theorem usable_eval_charge_independent :
  forall (smt : Type) (u : usable smt) (a b a' b' : atom_base smt) (r : fl),
    sm a = sm a' -> sm b = sm b' ->
    usable_eval u a b r = usable_eval u a' b' r.
Proof.
  intros smt u a b a' b' r Ha Hb.
  unfold usable_eval, get.
  rewrite Ha, Hb.
  reflexivity.
Qed.

Section UsableExample.
#[local] Existing Instance binary64.

Lemma usable_eval_charge_independent_witness :
  charge {| sm := true; charge := fl_lit 1 (-1) |}
    <> charge {| sm := true; charge := fl_lit (-1) 0 |}
  /\ usable_eval same_type_term
       {| sm := true; charge := fl_lit 1 (-1) |}
       {| sm := false; charge := fl_lit 3 0 |} (fl_lit 2 0)
     = usable_eval same_type_term
       {| sm := true; charge := fl_lit (-1) 0 |}
       {| sm := false; charge := fl_zero |} (fl_lit 2 0).
Proof.
  split.
  - vm_compute. discriminate.
  - apply usable_eval_charge_independent; reflexivity.
Defined.

End UsableExample.

(** ** Registry population *)

Lemma term_set_adds_app {T : Type} (calls : list (N * T)) (ts : term_set T) :
  enabled (term_set_adds calls ts)
    = enabled ts ++ map (fun c => (0 <? fst c)%N) calls
  /\ fun_ (term_set_adds calls ts) = fun_ ts ++ map snd calls.
Proof.
  unfold term_set_adds.
  revert ts.
  induction calls as [| c calls IH]; intros ts; simpl.
  - now rewrite !app_nil_r.
  - destruct (IH (term_set_add (fst c) (snd c) ts)) as [He Hf].
    rewrite He, Hf. simpl.
    now rewrite <- !app_assoc.
Qed.

(** C2: a registry populated by any sequence of [add] calls has as many
    flags as terms; the flag at position [k] is [weight_k > 0] and the term
    at position [k] is the [k]-th one added.  Each single [add] appends one
    flag and one term at the end of any registry, so the two lengths grow
    together. *)
Theorem term_set_add_invariant :
  forall (T : Type) (calls : list (N * T)) (ts0 : term_set T) (e0 : N) (f0 : T),
    let ts := term_set_adds calls term_set_new in
    length (enabled ts) = length (fun_ ts)
    /\ term_set_size ts = length calls
    /\ enabled ts = map (fun c => (0 <? fst c)%N) calls
    /\ fun_ ts = map snd calls
    /\ (forall k : nat,
          nth_error (enabled ts) k
            = option_map (fun c => (0 <? fst c)%N) (nth_error calls k)
          /\ nth_error (fun_ ts) k = option_map snd (nth_error calls k))
    /\ enabled (term_set_add e0 f0 ts0) = enabled ts0 ++ [(0 <? e0)%N]
    /\ fun_ (term_set_add e0 f0 ts0) = fun_ ts0 ++ [f0]
    /\ term_set_adds (calls ++ [(e0, f0)]) ts0
       = term_set_add e0 f0 (term_set_adds calls ts0)
    /\ enabled (term_set_adds calls ts0)
       = enabled ts0 ++ map (fun c => (0 <? fst c)%N) calls
    /\ fun_ (term_set_adds calls ts0) = fun_ ts0 ++ map snd calls.
Proof.
  intros T calls ts0 e0 f0 ts.
  destruct (term_set_adds_app calls (@term_set_new T)) as [He Hf].
  fold ts in He, Hf. simpl in He, Hf.
  assert (Hen : enabled ts = map (fun c => (0 <? fst c)%N) calls) by exact He.
  assert (Hfn : fun_ ts = map snd calls) by exact Hf.
  repeat split.
  - rewrite Hen, Hfn. now rewrite !length_map.
  - unfold term_set_size. rewrite Hfn. apply length_map.
  - exact Hen.
  - exact Hfn.
  - rewrite Hen. apply nth_error_map.
  - rewrite Hfn. apply nth_error_map.
  - unfold term_set_adds. now rewrite fold_left_app.
  - apply term_set_adds_app.
  - apply term_set_adds_app.
Qed.

(** ** The aggregate *)

(** C9: [add] on the aggregate appends the term, with the flag [e > 0], to
    the registry of the pointer's static kind and leaves the other four
    registries as they were. *)
Theorem terms_add_routes :
  forall (smt model atom_index : Type) (e : N)
         (t : terms smt model atom_index)
         (pd : distance_additive smt) (pu : usable smt)
         (pa : additive model atom_index) (pi : intermolecular model)
         (pc : conf_independent),
    (let t' := terms_add e (PDistanceAdditive model atom_index pd) t in
     distance_additive_terms t' = term_set_add e pd (distance_additive_terms t)
     /\ usable_terms t' = usable_terms t
     /\ additive_terms t' = additive_terms t
     /\ intermolecular_terms t' = intermolecular_terms t
     /\ conf_independent_terms t' = conf_independent_terms t)
    /\ (let t' := terms_add e (PUsable model atom_index pu) t in
     distance_additive_terms t' = distance_additive_terms t
     /\ usable_terms t' = term_set_add e pu (usable_terms t)
     /\ additive_terms t' = additive_terms t
     /\ intermolecular_terms t' = intermolecular_terms t
     /\ conf_independent_terms t' = conf_independent_terms t)
    /\ (let t' := terms_add e (PAdditive smt pa) t in
     distance_additive_terms t' = distance_additive_terms t
     /\ usable_terms t' = usable_terms t
     /\ additive_terms t' = term_set_add e pa (additive_terms t)
     /\ intermolecular_terms t' = intermolecular_terms t
     /\ conf_independent_terms t' = conf_independent_terms t)
    /\ (let t' := terms_add e (PIntermolecular smt atom_index pi) t in
     distance_additive_terms t' = distance_additive_terms t
     /\ usable_terms t' = usable_terms t
     /\ additive_terms t' = additive_terms t
     /\ intermolecular_terms t' = term_set_add e pi (intermolecular_terms t)
     /\ conf_independent_terms t' = conf_independent_terms t)
    /\ (let t' := terms_add e (PConfIndependent smt model atom_index pc) t in
     distance_additive_terms t' = distance_additive_terms t
     /\ usable_terms t' = usable_terms t
     /\ additive_terms t' = additive_terms t
     /\ intermolecular_terms t' = intermolecular_terms t
     /\ conf_independent_terms t' = term_set_add e pc (conf_independent_terms t))
    /\ (forall (T : Type) (f : T) (ts : term_set T),
          enabled (term_set_add e f ts) = enabled ts ++ [(0 <? e)%N]
          /\ fun_ (term_set_add e f ts) = fun_ ts ++ [f]).
Proof.
  intros. repeat split; reflexivity.
Qed.

(** ** Registry queries *)

Lemma skipn_nth_error_cons {A : Type} (l : list A) (n : nat) (v : A) :
  nth_error l n = Some v -> skipn n l = v :: skipn (S n) l.
Proof.
  revert l.
  induction n as [| n IH]; intros [| x l] H; simpl in H; try discriminate.
  - now inversion H.
  - simpl. now apply IH.
Qed.

Lemma select_cons {A : Type} (b : bool) (en : list bool) (v : A) (vals : list A) :
  select (b :: en) (v :: vals)
    = if b then v :: select en vals else select en vals.
Proof. unfold select. simpl. now destruct b. Qed.

Lemma select_nil_r {A : Type} (en : list bool) : select en (@nil A) = [].
Proof. unfold select. now rewrite combine_nil. Qed.

Lemma select_firstn {A : Type} (en : list bool) (vals : list A) :
  select en (firstn (length en) vals) = select en vals.
Proof. unfold select. now rewrite <- combine_firstn_l. Qed.

Lemma count_enabled (en : list bool) (acc : nat) :
  fold_left (fun tmp b => if b : bool then S tmp else tmp) en acc
    = acc + length (filter (fun b => b) en).
Proof.
  revert acc.
  induction en as [| b en IH]; intros acc; simpl.
  - lia.
  - rewrite IH. destruct b; simpl; lia.
Qed.

Lemma length_select {A : Type} (en : list bool) (vals : list A) :
  length en <= length vals ->
  length (select en vals) = length (filter (fun b => b) en).
Proof.
  revert vals.
  induction en as [| b en IH]; intros [| v vals] H; simpl in H;
    try reflexivity; try lia.
  rewrite select_cons.
  destruct b; simpl; rewrite IH by lia; reflexivity.
Qed.

Lemma filter_loop_spec (en : list bool) :
  forall (it : iterator) (out : flv),
    pos it + length en <= length (buf it) ->
    filter_loop en it out
      = Ret ({| buf := buf it; pos := pos it + length en |},
             out ++ select en (skipn (pos it) (buf it))).
Proof.
  induction en as [| b en IH]; intros [bf p] out H; simpl in *.
  - now rewrite Nat.add_0_r, app_nil_r.
  - destruct (nth_error bf p) as [v |] eqn:Hv.
    2:{ apply nth_error_None in Hv. lia. }
    rewrite (skipn_nth_error_cons _ _ Hv), select_cons.
    unfold deref, incr. simpl. rewrite Hv.
    assert (Hlt : (p <? length bf) = true) by (apply Nat.ltb_lt; lia).
    destruct b; simpl; rewrite Hlt; simpl;
      rewrite IH by (simpl; lia); simpl;
      rewrite <- ?app_assoc, Nat.add_succ_r; reflexivity.
Qed.

(** C3: on a registry with as many flags as terms and an input iterator
    with [size()] values ahead, [filter] leaves the iterator [size()]
    positions further and appends to [out], after what was there, the
    input values at the enabled positions, in order; there are
    [num_enabled()] of them. *)
Theorem term_set_filter_spec :
  forall (T : Type) (ts : term_set T) (it : iterator) (out : flv)
         (h : handler),
    length (enabled ts) = length (fun_ ts) ->
    pos it + term_set_size ts <= length (buf it) ->
    let window := firstn (term_set_size ts) (skipn (pos it) (buf it)) in
    exec h (term_set_filter ts it out)
      = ok ({| buf := buf it; pos := pos it + term_set_size ts |},
            out ++ select (enabled ts) window)
    /\ length window = term_set_size ts
    /\ length (select (enabled ts) window) = term_set_num_enabled ts.
Proof.
  intros T ts it out h Hinv Hin window.
  unfold term_set_size in *.
  assert (Hw : select (enabled ts) window
               = select (enabled ts) (skipn (pos it) (buf it))).
  { unfold window. rewrite <- Hinv. apply select_firstn. }
  split; [| split].
  - unfold term_set_filter.
    rewrite Hinv, Nat.eqb_refl. simpl.
    rewrite filter_loop_spec by lia.
    rewrite Hw, Hinv. reflexivity.
  - unfold window. rewrite length_firstn, length_skipn. lia.
  - rewrite Hw. unfold term_set_num_enabled.
    rewrite count_enabled. simpl.
    apply length_select. rewrite length_skipn. lia.
Qed.

Section FilterExample.
#[local] Existing Instance binary64.

Lemma term_set_filter_spec_witness :
  exec Fatal
    (term_set_filter example_registry
       {| buf := [fl_lit 1 0; fl_lit 2 0; fl_lit 3 0; fl_lit 4 0]; pos := 1 |}
       [fl_lit 9 0])
  = ok ({| buf := [fl_lit 1 0; fl_lit 2 0; fl_lit 3 0; fl_lit 4 0]; pos := 4 |},
        [fl_lit 9 0; fl_lit 2 0; fl_lit 4 0]).
Proof.
  apply (term_set_filter_spec example_registry
           {| buf := [fl_lit 1 0; fl_lit 2 0; fl_lit 3 0; fl_lit 4 0];
              pos := 1 |}
           [fl_lit 9 0] Fatal).
  - reflexivity.
  - unfold term_set_size. simpl. lia.
Defined.

End FilterExample.

Lemma get_names_loop_spec {T : Type} `{Named T} (enabled_only : bool)
    (en : list bool) (fs : list T) :
  forall (k : nat) (out : list string),
    k + length fs = length en ->
    get_names_loop enabled_only en fs k out
      = Ret (out ++ map name_of
                      (if enabled_only then select (skipn k en) fs else fs)).
Proof.
  induction fs as [| f fs IH]; intros k out Hk; simpl in *.
  - rewrite select_nil_r.
    destruct enabled_only; simpl; now rewrite app_nil_r.
  - destruct enabled_only; simpl.
    + destruct (nth_error en k) as [b |] eqn:Hb.
      2:{ apply nth_error_None in Hb. lia. }
      rewrite (skipn_nth_error_cons _ _ Hb), select_cons.
      rewrite IH by lia.
      destruct b; simpl; rewrite <- ?app_assoc; reflexivity.
    + rewrite IH by lia. simpl. now rewrite <- app_assoc.
Qed.

(** C7: on a registry with as many flags as terms, [get_names] appends to
    [out], after what was there, the names in registration order: those
    at the positions whose flag is set when [enabled_only] is set, all of
    them otherwise. *)
Theorem term_set_get_names_spec :
  forall (T : Type) (N_ : Named T) (ts : term_set T) (enabled_only : bool)
         (out : list string) (h : handler),
    length (enabled ts) = length (fun_ ts) ->
    exec h (term_set_get_names ts enabled_only out)
      = ok (out ++ map name_of
                     (if enabled_only then select (enabled ts) (fun_ ts)
                      else fun_ ts)).
Proof.
  intros T N_ ts enabled_only out h Hinv.
  unfold term_set_get_names.
  rewrite Hinv, Nat.eqb_refl. simpl.
  rewrite get_names_loop_spec by (simpl; lia).
  reflexivity.
Qed.

Section NamesExample.
#[local] Existing Instance binary64.

Lemma term_set_get_names_spec_witness :
  exec Fatal (term_set_get_names example_registry true ["z"%string])
    = ok ["z"; "a"; "c"]%string
  /\ exec Fatal (term_set_get_names example_registry false ["z"%string])
    = ok ["z"; "a"; "b"; "c"]%string.
Proof.
  split.
  - apply (term_set_get_names_spec (@usable_named bool) example_registry
             true ["z"%string] Fatal).
    reflexivity.
  - apply (term_set_get_names_spec (@usable_named bool) example_registry
             false ["z"%string] Fatal).
    reflexivity.
Defined.

End NamesExample.

(** ** The order behind [std::max] *)

Ltac compare_cases :=
  repeat match goal with
  | H : context [Z.compare ?a ?b] |- _ =>
      destruct (Z.compare_spec a b); simpl in H
  | |- context [Z.compare ?a ?b] =>
      destruct (Z.compare_spec a b); simpl
  | H : context [Pos.compare_cont Eq ?a ?b] |- _ =>
      change (Pos.compare_cont Eq a b) with (Pos.compare a b) in H;
      destruct (Pos.compare_spec a b); simpl in H
  | |- context [Pos.compare_cont Eq ?a ?b] =>
      change (Pos.compare_cont Eq a b) with (Pos.compare a b);
      destruct (Pos.compare_spec a b); simpl
  end;
  subst; try reflexivity; try discriminate; try lia.

Lemma fl_ltb_irrefl (c : fl) : fl_ltb c c = false.
Proof.
  unfold fl_ltb, SFltb, SFcompare.
  destruct c as [s | s | | s m e]; try destruct s; simpl; compare_cases.
Qed.

(** If [c <= t] fails to be refuted and [t < c'], then [c'] is not below
    [c]: [c'] may replace [t] as a running maximum. *)
Lemma fl_ltb_raise (t c' c : fl) :
  fl_ltb t c' = true -> fl_ltb t c = false -> fl_ltb c' c = false.
Proof.
  unfold fl_ltb, SFltb, SFcompare.
  destruct t as [st | st | | st mt et];
    destruct c' as [s' | s' | | s' m' e'];
    destruct c as [s | s | | s m e];
    try destruct st; try destruct s'; try destruct s; simpl;
    intros H1 H2; try reflexivity; try discriminate;
    compare_cases.
Qed.

Lemma fl_ltb_not_nan (a b : fl) :
  fl_ltb a b = true -> b <> S754_nan.
Proof.
  unfold fl_ltb, SFltb, SFcompare.
  destruct a, b; simpl; intros H; try discriminate; congruence.
Qed.

Lemma SFcompare_refl (c : fl) : c <> S754_nan -> SFcompare c c = Some Eq.
Proof.
  unfold SFcompare.
  destruct c as [s | s | | s m e]; try destruct s; simpl; intros H;
    try reflexivity; try congruence; compare_cases.
Qed.

Lemma SFcompare_zero_eq (c : fl) :
  fl_leb fl_zero c = true -> fl_ltb fl_zero c = false ->
  SFcompare fl_zero c = Some Eq.
Proof.
  unfold fl_leb, fl_ltb, SFleb, SFltb, fl_zero, SFcompare.
  destruct c as [s | s | | s m e]; try destruct s; simpl;
    intros H1 H2; try reflexivity; discriminate.
Qed.

(** The running maximum of [max_cutoff] after the cutoffs [l]. *)
Lemma running_max_invariant (l : flv) :
  let m := fold_left fl_max l fl_zero in
  m <> S754_nan
  /\ (m = fl_zero \/ In m l)
  /\ fl_ltb m fl_zero = false
  /\ Forall (fun c => fl_ltb m c = false) l.
Proof.
  induction l as [| c l IH] using rev_ind; simpl.
  - refine (conj _ (conj _ (conj _ _))); try discriminate; auto.
  - rewrite fold_left_app. simpl.
    destruct IH as (Hnan & Hin & Hzero & Hall).
    set (m := fold_left fl_max l fl_zero) in *.
    unfold fl_max.
    destruct (fl_ltb m c) eqn:Hlt.
    + refine (conj _ (conj _ (conj _ _))).
      * exact (@fl_ltb_not_nan _ _ Hlt).
      * right. apply in_or_app. right. now left.
      * exact (@fl_ltb_raise _ _ _ Hlt Hzero).
      * apply Forall_app. split.
        -- eapply Forall_impl; [| exact Hall].
           intros x Hx. exact (@fl_ltb_raise _ _ _ Hlt Hx).
        -- constructor; [apply fl_ltb_irrefl | constructor].
    + refine (conj Hnan (conj _ (conj Hzero _))).
      * destruct Hin as [Hin | Hin]; [now left | right].
        apply in_or_app. now left.
      * apply Forall_app. split; [exact Hall |].
        constructor; [exact Hlt | constructor].
Qed.

Lemma max_cutoff_fold {T : Type} `{HasCutoff T} (ts : term_set T) :
  term_set_max_cutoff ts = fold_left fl_max (map cutoff_of (fun_ ts)) fl_zero.
Proof.
  unfold term_set_max_cutoff.
  generalize fl_zero.
  induction (fun_ ts) as [| f fs IH]; intros tmp; simpl; [reflexivity |].
  apply IH.
Qed.

(** C5, as stated, fails: a registry whose only term has the cutoff -1 has
    the maximum cutoff -1, and [max_cutoff] returns 0, which is not the
    cutoff of any of its terms. *)
Lemma term_set_max_cutoff_not_a_cutoff :
  map cutoff_of (fun_ (@negative_registry binary64)) = [@fl_lit binary64 (-1) 0]
  /\ term_set_max_cutoff (@negative_registry binary64) = fl_zero
  /\ term_set_max_cutoff (@negative_registry binary64)
     <> @fl_lit binary64 (-1) 0
  /\ ~ In (term_set_max_cutoff (@negative_registry binary64))
          (map cutoff_of (fun_ (@negative_registry binary64))).
Proof.
  vm_compute.
  refine (conj eq_refl (conj eq_refl (conj _ _))).
  - discriminate.
  - intros [H | []]. discriminate H.
Qed.

(** C5 (amended): [max_cutoff] returns the largest value among 0 and the
    cutoffs of all terms, whatever the enable flags: it is a number, never
    below 0 nor below any cutoff, and it is 0 or one of the cutoffs.  It is
    the maximum cutoff as soon as one cutoff is not negative (4.5 for the
    cutoffs 2.0, 4.5, 3.1), and 0 for an empty registry. *)
Theorem term_set_max_cutoff_spec :
  forall (T : Type) (HC : HasCutoff T) (ts : term_set T) (en' : list bool),
    let m := term_set_max_cutoff ts in
    let cutoffs := map cutoff_of (fun_ ts) in
    (m = fl_zero \/ In m cutoffs)
    /\ m <> S754_nan
    /\ fl_ltb m fl_zero = false
    /\ Forall (fun c => fl_ltb m c = false) cutoffs
    /\ term_set_max_cutoff {| enabled := en'; fun_ := fun_ ts |} = m
    /\ term_set_max_cutoff {| enabled := en'; fun_ := @nil T |} = fl_zero
    /\ (Exists (fun c => fl_leb fl_zero c = true) cutoffs ->
        Exists (fun c => SFcompare m c = Some Eq) cutoffs)
    /\ Forall (fun F : fl_format =>
         map cutoff_of example_terms = [fl_lit 2 0; fl_dec 45 10; fl_dec 31 10]
         /\ term_set_max_cutoff {| enabled := en'; fun_ := example_terms |}
            = fl_dec 45 10)
       [binary64; binary32].
Proof.
  intros T HC ts en' m cutoffs.
  assert (Hm : m = fold_left fl_max cutoffs fl_zero) by apply max_cutoff_fold.
  destruct (running_max_invariant cutoffs) as (Hnan & Hin & Hzero & Hall).
  rewrite <- Hm in Hnan, Hin, Hzero, Hall.
  refine (conj Hin (conj Hnan (conj Hzero (conj Hall
            (conj _ (conj _ (conj _ _))))))).
  - reflexivity.
  - reflexivity.
  - intros Hex.
    destruct Hin as [H0 | Hin].
    + apply Exists_exists in Hex. destruct Hex as (c & Hc & Hle).
      apply Exists_exists. exists c. split; [exact Hc |].
      rewrite H0. apply SFcompare_zero_eq; [exact Hle |].
      rewrite Forall_forall in Hall. rewrite <- H0. now apply Hall.
    + apply Exists_exists. exists m. split; [exact Hin |].
      now apply SFcompare_refl.
  - repeat constructor; vm_compute; reflexivity.
Qed.

Section CutoffExample.
#[local] Existing Instance binary64.

Lemma term_set_max_cutoff_spec_witness :
  Exists (fun c => SFcompare (term_set_max_cutoff example_registry) c = Some Eq)
    (map cutoff_of (fun_ example_registry)).
Proof.
  destruct (term_set_max_cutoff_spec (@usable_cutoff bool) example_registry [])
    as (_ & _ & _ & _ & _ & _ & Hmax & _).
  apply Hmax.
  apply Exists_cons_hd. reflexivity.
Defined.

End CutoffExample.

(** ** Weighted factors *)

Lemma weighted_sum_spec {F : fl_format} (weights : flv) (g : flv) :
  forall (k : nat) (tmp : fl),
    k + length g <= length weights ->
    weighted_sum g weights k tmp
      = Ret (fold_left (fun acc xw => (acc + fst xw * snd xw)%fl)
               (combine g (skipn k weights)) tmp).
Proof.
  induction g as [| x g IH]; intros k tmp Hk; simpl in *.
  - reflexivity.
  - destruct (nth_error weights k) as [w |] eqn:Hw.
    2:{ apply nth_error_None in Hw. lia. }
    rewrite (@skipn_nth_error_cons _ _ _ _ Hw).
    rewrite IH by lia.
    reflexivity.
Qed.

Lemma factors_num_weights_max (f : factors) :
  factors_num_weights f = Nat.max (length (e f)) (length (i f)).
Proof.
  unfold factors_num_weights.
  destruct (length (i f) <? length (e f)) eqn:Hlt.
  - apply Nat.ltb_lt in Hlt. lia.
  - apply Nat.ltb_ge in Hlt. lia.
Qed.

(** C4: [num_weights()] is the larger of the two group sizes.  With at
    least that many weights, [eval] returns the sum of the [e[k]*weights[k]],
    plus the sum of the [i[k]*weights[k]] when [include_internal] is set;
    with fewer weights the check fails and no value is computed from a
    truncated vector.  On [e = [1,2]], [i = [10,20]], [weights = [1,0.5]]
    the results are 2 and 22. *)
Theorem factors_eval_spec :
  (forall (F : fl_format) (f : factors) (weights : flv)
          (include_internal : bool) (h : handler),
      factors_num_weights f = Nat.max (length (e f)) (length (i f))
      /\ if factors_num_weights f <=? length weights
         then exec h (factors_eval f weights include_internal)
              = ok (if include_internal
                    then fl_add (dot (e f) weights) (dot (i f) weights)
                    else dot (e f) weights)
         else 1 <= signals (exec h (factors_eval f weights include_internal))
              /\ exec Fatal (factors_eval f weights include_internal)
                 = {| signals := 1; value := None |})
  /\ Forall (fun F : fl_format =>
       exec Fatal (factors_eval example_factors example_weights false)
         = ok (fl_lit 2 0)
       /\ exec Fatal (factors_eval example_factors example_weights true)
         = ok (fl_lit 22 0))
     [binary64; binary32].
Proof.
  split.
  - intros F f weights include_internal h.
    split; [apply factors_num_weights_max |].
    pose proof (factors_num_weights_max f) as Hmax.
    unfold factors_eval.
    destruct (factors_num_weights f <=? length weights) eqn:Hle.
    + apply Nat.leb_le in Hle. simpl.
      rewrite (weighted_sum_spec weights (e f) 0 fl_zero) by (simpl; lia).
      simpl.
      destruct include_internal; [| reflexivity].
      rewrite (weighted_sum_spec weights (i f) 0 fl_zero) by (simpl; lia).
      reflexivity.
    + split; [| reflexivity].
      destruct h; simpl; lia.
  - repeat constructor; vm_compute; reflexivity.
Qed.

(** * Further properties of the registry *)

(** ** Counting and indexing *)

Lemma count_enabled_le (en : list bool) :
  length (filter (fun b => b) en) <= length en.
Proof.
  induction en as [| b en IH]; simpl; [lia |].
  destruct b; simpl; lia.
Qed.

Lemma filter_map_flags {A : Type} (f : A -> bool) (l : list A) :
  length (filter (fun b => b) (map f l)) = length (filter f l).
Proof.
  induction l as [| x l IH]; simpl; [reflexivity |].
  destruct (f x); simpl; now rewrite IH.
Qed.

Lemma select_map {A B : Type} (f : A -> bool) (g : A -> B) (l : list A) :
  select (map f l) (map g l) = map g (filter f l).
Proof.
  induction l as [| x l IH]; [reflexivity |].
  simpl map. rewrite select_cons, IH.
  simpl. now destruct (f x).
Qed.

(** [num_enabled] never exceeds the number of flags; each [add] raises it
    by one exactly when its weight is positive, so on a registry populated
    by [add] it is the number of calls with a positive weight and at most
    [size()]. *)
Theorem term_set_num_enabled_counts :
  forall (T : Type) (ts : term_set T) (e0 : N) (f0 : T)
         (calls : list (N * T)),
    term_set_num_enabled ts <= length (enabled ts)
    /\ term_set_num_enabled (term_set_add e0 f0 ts)
       = term_set_num_enabled ts + (if (0 <? e0)%N then 1 else 0)
    /\ term_set_num_enabled (term_set_adds calls term_set_new)
       = length (filter enabling calls)
    /\ term_set_num_enabled (term_set_adds calls term_set_new)
       <= term_set_size (term_set_adds calls term_set_new).
Proof.
  intros T ts e0 f0 calls.
  destruct (term_set_adds_app calls (@term_set_new T)) as [He Hf].
  simpl in He, Hf.
  unfold term_set_num_enabled, term_set_size.
  rewrite !count_enabled. simpl.
  refine (conj (count_enabled_le _) (conj _ (conj _ _))).
  - rewrite filter_app, length_app. simpl.
    destruct (0 <? e0)%N; reflexivity.
  - rewrite He. apply filter_map_flags.
  - rewrite He, Hf, length_map.
    rewrite filter_map_flags.
    apply filter_length_le.
Qed.

(** Indexing after an [add]: the positions that existed keep their term,
    the position [size()] holds the new term, and every later position is
    outside the registry. *)
Theorem term_set_at_add :
  forall (T : Type) (ts : term_set T) (e0 : N) (f0 : T) (k : sz),
    term_set_size (term_set_add e0 f0 ts) = S (term_set_size ts)
    /\ term_set_at (term_set_add e0 f0 ts) k
       = if k <? term_set_size ts then term_set_at ts k
         else if k =? term_set_size ts then Ret f0
         else Undef.
Proof.
  intros T ts e0 f0 k.
  unfold term_set_size, term_set_at. simpl.
  split; [rewrite length_app; simpl; lia |].
  destruct (k <? length (fun_ ts)) eqn:Hlt.
  - apply Nat.ltb_lt in Hlt. now rewrite nth_error_app1.
  - apply Nat.ltb_ge in Hlt.
    rewrite nth_error_app2 by exact Hlt.
    destruct (k =? length (fun_ ts)) eqn:Heq.
    + apply Nat.eqb_eq in Heq. subst k. now rewrite Nat.sub_diag.
    + apply Nat.eqb_neq in Heq.
      destruct (k - length (fun_ ts)) as [| d] eqn:Hd; [lia |].
      simpl. now destruct d.
Qed.

(** ** Population followed by a query *)

(** On a registry populated by [add], [get_names] always passes its check:
    it appends the names of the calls with a positive weight when
    [enabled_only] is set, and the names of all calls otherwise, in call
    order. *)
Theorem term_set_get_names_after_adds :
  forall (T : Type) (N_ : Named T) (calls : list (N * T))
         (enabled_only : bool) (out : list string) (h : handler),
    exec h (term_set_get_names (term_set_adds calls term_set_new)
              enabled_only out)
    = ok (out ++ map (fun c => name_of (snd c))
                   (if enabled_only then filter enabling calls else calls)).
Proof.
  intros T N_ calls enabled_only out h.
  destruct (term_set_adds_app calls (@term_set_new T)) as [He Hf].
  simpl in He, Hf.
  unfold term_set_get_names.
  rewrite He, Hf, !length_map, Nat.eqb_refl. simpl.
  rewrite get_names_loop_spec by (simpl; rewrite !length_map; lia).
  simpl skipn.
  destruct enabled_only.
  - rewrite (select_map (fun c : N * T => (0 <? fst c)%N) snd calls).
    now rewrite map_map.
  - now rewrite map_map.
Qed.

(** On a registry populated by [add], [filter] keeps the input values that
    stand at the positions of the calls with a positive weight. *)
Theorem term_set_filter_after_adds :
  forall (T : Type) (calls : list (N * T)) (it : iterator) (out : flv)
         (h : handler),
    pos it + length calls <= length (buf it) ->
    exec h (term_set_filter (term_set_adds calls term_set_new) it out)
    = ok ({| buf := buf it; pos := pos it + length calls |},
          out ++ select (map enabling calls) (skipn (pos it) (buf it))).
Proof.
  intros T calls it out h Hin.
  destruct (term_set_adds_app calls (@term_set_new T)) as [He Hf].
  simpl in He, Hf.
  unfold term_set_filter.
  rewrite He, Hf, !length_map, Nat.eqb_refl. simpl.
  rewrite filter_loop_spec by (rewrite length_map; lia).
  now rewrite length_map.
Qed.

Section AfterAddsExample.
#[local] Existing Instance binary64.

Lemma term_set_filter_after_adds_witness :
  exec Fatal
    (term_set_filter
       (term_set_adds [(2%N, "a"%string); (0%N, "b"%string)] term_set_new)
       {| buf := [fl_lit 1 0; fl_lit 2 0]; pos := 0 |} [])
  = ok ({| buf := [fl_lit 1 0; fl_lit 2 0]; pos := 2 |}, [fl_lit 1 0]).
Proof.
  apply (term_set_filter_after_adds
           [(2%N, "a"%string); (0%N, "b"%string)]
           {| buf := [fl_lit 1 0; fl_lit 2 0]; pos := 0 |} [] Fatal).
  simpl. lia.
Defined.

End AfterAddsExample.

(** ** Failed checks and short inputs *)

(** When the flags and the terms of a registry are out of step,
    [get_names] and [filter] raise the failure signal before looking at
    anything else; a handler that stops there gets no value from either. *)
Theorem term_set_check_failure :
  forall (T : Type) (N_ : Named T) (ts : term_set T) (enabled_only : bool)
         (names : list string) (it : iterator) (out : flv) (h : handler),
    length (enabled ts) <> length (fun_ ts) ->
    1 <= signals (exec h (term_set_get_names ts enabled_only names))
    /\ 1 <= signals (exec h (term_set_filter ts it out))
    /\ exec Fatal (term_set_get_names ts enabled_only names)
       = {| signals := 1; value := None |}
    /\ exec Fatal (term_set_filter ts it out)
       = {| signals := 1; value := None |}.
Proof.
  intros T N_ ts enabled_only names it out h Hne.
  apply Nat.eqb_neq in Hne.
  unfold term_set_get_names, term_set_filter.
  rewrite Hne.
  destruct h; simpl; repeat split; lia.
Qed.

Section CheckFailureExample.
#[local] Existing Instance binary64.

Lemma term_set_check_failure_witness :
  exec Fatal (term_set_get_names broken_registry false [])
    = {| signals := 1; value := None |}
  /\ exec Fatal
       (term_set_filter broken_registry
          {| buf := [fl_lit 1 0; fl_lit 2 0; fl_lit 3 0]; pos := 0 |} [])
     = {| signals := 1; value := None |}.
Proof.
  destruct (term_set_check_failure (@usable_named bool) broken_registry false
              [] {| buf := [fl_lit 1 0; fl_lit 2 0; fl_lit 3 0]; pos := 0 |}
              [] Fatal) as (_ & _ & Hn & Hf).
  - simpl. discriminate.
  - exact (conj Hn Hf).
Defined.

End CheckFailureExample.

Lemma filter_loop_short (en : list bool) :
  forall (it : iterator) (out : flv),
    en <> [] ->
    length (buf it) < pos it + length en ->
    filter_loop en it out = Undef.
Proof.
  induction en as [| b en IH]; intros [bf p] out Hne Hshort; simpl in *.
  - congruence.
  - unfold deref, incr. simpl.
    destruct (nth_error bf p) as [v |] eqn:Hv.
    + assert (Hp : p < length bf) by (apply nth_error_Some; congruence).
      assert (Hlt : (p <? length bf) = true) by now apply Nat.ltb_lt.
      assert (Hen : en <> []) by (destruct en; [simpl in Hshort; lia | discriminate]).
      destruct b; simpl; rewrite Hlt; simpl; apply IH; simpl; auto; lia.
    + apply nth_error_None in Hv.
      assert (Hlt : (p <? length bf) = false) by (apply Nat.ltb_ge; lia).
      destruct b; simpl; [reflexivity |].
      now rewrite Hlt.
Qed.

(** On a consistent registry and an iterator inside its buffer, [filter]
    returns exactly when [size()] values are left to read; with fewer it
    runs past the end of the input and yields nothing. *)
Theorem term_set_filter_bounds :
  forall (T : Type) (ts : term_set T) (it : iterator) (out : flv)
         (h : handler),
    length (enabled ts) = length (fun_ ts) ->
    pos it <= length (buf it) ->
    exec h (term_set_filter ts it out)
    = if pos it + term_set_size ts <=? length (buf it)
      then ok ({| buf := buf it; pos := pos it + term_set_size ts |},
               out ++ select (enabled ts) (skipn (pos it) (buf it)))
      else {| signals := 0; value := None |}.
Proof.
  intros T ts it out h Hinv Hpos.
  unfold term_set_filter, term_set_size.
  rewrite Hinv, Nat.eqb_refl. simpl.
  rewrite <- Hinv.
  destruct (pos it + length (enabled ts) <=? length (buf it)) eqn:Hle.
  - apply Nat.leb_le in Hle. now rewrite filter_loop_spec.
  - apply Nat.leb_gt in Hle.
    rewrite filter_loop_short; [reflexivity | | exact Hle].
    intros Hnil. rewrite Hnil in Hle. simpl in Hle. lia.
Qed.

Section BoundsExample.
#[local] Existing Instance binary64.

Lemma term_set_filter_bounds_witness :
  exec Fatal
    (term_set_filter example_registry
       {| buf := [fl_lit 1 0; fl_lit 2 0]; pos := 0 |} [])
  = {| signals := 0; value := None |}.
Proof.
  apply (term_set_filter_bounds example_registry
           {| buf := [fl_lit 1 0; fl_lit 2 0]; pos := 0 |} [] Fatal).
  - reflexivity.
  - simpl. lia.
Defined.

End BoundsExample.

(** Whatever the handler and whatever the state of the registry, a call of
    [filter] that returns has left the input buffer as it was, has moved
    the iterator by the number of flags, and has only appended to [out]:
    [num_enabled()] values after what was there. *)
Theorem term_set_filter_frame :
  forall (T : Type) (ts : term_set T) (it it' : iterator) (out out' : flv)
         (h : handler),
    value (exec h (term_set_filter ts it out)) = Some (it', out') ->
    buf it' = buf it
    /\ pos it' = pos it + length (enabled ts)
    /\ firstn (length out) out' = out
    /\ length out' = length out + term_set_num_enabled ts.
Proof.
  intros T ts it it' out out' h Hval.
  assert (Hloop : value (exec h (filter_loop (enabled ts) it out))
                  = Some (it', out')).
  { unfold term_set_filter in Hval.
    destruct (length (enabled ts) =? length (fun_ ts)); simpl in Hval;
      [exact Hval |].
    destruct h; simpl in Hval; [discriminate | exact Hval]. }
  unfold term_set_num_enabled. rewrite count_enabled. simpl.
  destruct (Nat.le_gt_cases (pos it + length (enabled ts)) (length (buf it)))
    as [Hle | Hgt].
  - rewrite filter_loop_spec in Hloop by exact Hle.
    simpl in Hloop. inversion Hloop; subst it' out'. simpl.
    refine (conj eq_refl (conj eq_refl (conj _ _))).
    + rewrite firstn_app, Nat.sub_diag, firstn_all. simpl.
      apply app_nil_r.
    + rewrite length_app, length_select; [reflexivity |].
      rewrite length_skipn. lia.
  - destruct (enabled ts) as [| b en] eqn:Hen.
    + simpl in Hloop. inversion Hloop; subst it' out'. simpl.
      rewrite Nat.add_0_r, firstn_all. auto.
    + rewrite filter_loop_short in Hloop; [discriminate | discriminate |].
      exact Hgt.
Qed.

Section FrameExample.
#[local] Existing Instance binary64.

Lemma term_set_filter_frame_witness :
  length [fl_lit 9 0; fl_lit 1 0] = 1 + term_set_num_enabled broken_registry.
Proof.
  apply (@term_set_filter_frame _ broken_registry
           {| buf := [fl_lit 1 0; fl_lit 2 0]; pos := 0 |}
           {| buf := [fl_lit 1 0; fl_lit 2 0]; pos := 1 |}
           [fl_lit 9 0] [fl_lit 9 0; fl_lit 1 0] Resume).
  reflexivity.
Defined.

End FrameExample.

Lemma select_uniform {A : Type} (b : bool) (en : list bool) :
  forall vals : list A,
    Forall (eq b) en ->
    length en <= length vals ->
    select en vals = if b then firstn (length en) vals else [].
Proof.
  induction en as [| x en IH]; intros vals Hall Hlen.
  - simpl. now destruct b.
  - destruct vals as [| v vals]; simpl in Hlen; [lia |].
    inversion Hall as [| ? ? Hx Hall']; subst.
    rewrite select_cons, IH by (auto; lia).
    destruct x; reflexivity.
Qed.

(** When all the flags of a registry agree, [filter] either copies the
    next [size()] input values to [out] (all enabled) or copies nothing
    (all disabled); the iterator moves by [size()] in both cases. *)
Theorem term_set_filter_uniform_flags :
  forall (T : Type) (ts : term_set T) (it : iterator) (out : flv)
         (h : handler) (b : bool),
    length (enabled ts) = length (fun_ ts) ->
    pos it + term_set_size ts <= length (buf it) ->
    Forall (eq b) (enabled ts) ->
    exec h (term_set_filter ts it out)
    = ok ({| buf := buf it; pos := pos it + term_set_size ts |},
          if b then out ++ firstn (term_set_size ts) (skipn (pos it) (buf it))
          else out).
Proof.
  intros T ts it out h b Hinv Hin Hall.
  unfold term_set_filter, term_set_size in *.
  rewrite Hinv, Nat.eqb_refl. simpl.
  rewrite filter_loop_spec by lia.
  rewrite (@select_uniform fl b (enabled ts) (skipn (pos it) (buf it)) Hall)
    by (rewrite length_skipn; lia).
  rewrite Hinv.
  destruct b; [reflexivity | now rewrite app_nil_r].
Qed.

Section UniformExample.
#[local] Existing Instance binary64.

Lemma term_set_filter_uniform_flags_witness :
  exec Fatal
    (term_set_filter negative_registry
       {| buf := [fl_lit 1 0; fl_lit 2 0]; pos := 1 |} [fl_lit 9 0])
  = ok ({| buf := [fl_lit 1 0; fl_lit 2 0]; pos := 2 |},
        [fl_lit 9 0; fl_lit 2 0]).
Proof.
  apply (@term_set_filter_uniform_flags _ negative_registry
           {| buf := [fl_lit 1 0; fl_lit 2 0]; pos := 1 |} [fl_lit 9 0]
           Fatal true).
  - reflexivity.
  - unfold term_set_size. simpl. lia.
  - repeat constructor.
Defined.

End UniformExample.

(** ** One output across several registries *)

Lemma select_app {A : Type} (en1 en2 : list bool) :
  forall vals : list A,
    length en1 <= length vals ->
    select (en1 ++ en2) vals
    = select en1 vals ++ select en2 (skipn (length en1) vals).
Proof.
  induction en1 as [| b en1 IH]; intros vals Hlen; simpl in *.
  - reflexivity.
  - destruct vals as [| v vals]; simpl in Hlen; [lia |].
    rewrite !select_cons, IH by lia.
    now destruct b.
Qed.

(** Two registries filtered one after the other, on the same iterator and
    the same output, behave as one registry holding the flags of the first
    followed by the flags of the second. *)
Theorem term_set_filter_sequence :
  forall (T1 T2 : Type) (ts1 : term_set T1) (ts2 : term_set T2)
         (it : iterator) (out : flv) (h : handler),
    length (enabled ts1) = length (fun_ ts1) ->
    length (enabled ts2) = length (fun_ ts2) ->
    pos it + (term_set_size ts1 + term_set_size ts2) <= length (buf it) ->
    exec h (r <- term_set_filter ts1 it out ;;
            term_set_filter ts2 (fst r) (snd r))
    = ok ({| buf := buf it;
             pos := pos it + (term_set_size ts1 + term_set_size ts2) |},
          out ++ select (enabled ts1 ++ enabled ts2)
                   (skipn (pos it) (buf it))).
Proof.
  intros T1 T2 ts1 ts2 it out h H1 H2 Hin.
  unfold term_set_filter, term_set_size in *.
  rewrite H1, H2, !Nat.eqb_refl. simpl.
  rewrite <- H1, <- H2 in *.
  rewrite filter_loop_spec by lia. simpl.
  rewrite filter_loop_spec by (simpl; lia). simpl.
  rewrite select_app by (rewrite length_skipn; lia).
  rewrite skipn_skipn, <- app_assoc, Nat.add_assoc.
  now rewrite (Nat.add_comm (length (enabled ts1)) (pos it)).
Qed.

Section SequenceExample.
#[local] Existing Instance binary64.

Lemma term_set_filter_sequence_witness :
  exec Fatal
    (r <- term_set_filter example_registry
            {| buf := [fl_lit 1 0; fl_lit 2 0; fl_lit 3 0; fl_lit 4 0];
               pos := 0 |} [] ;;
     term_set_filter negative_registry (fst r) (snd r))
  = ok ({| buf := [fl_lit 1 0; fl_lit 2 0; fl_lit 3 0; fl_lit 4 0];
           pos := 4 |},
        [fl_lit 1 0; fl_lit 3 0; fl_lit 4 0]).
Proof.
  apply (term_set_filter_sequence example_registry negative_registry
           {| buf := [fl_lit 1 0; fl_lit 2 0; fl_lit 3 0; fl_lit 4 0];
              pos := 0 |} [] Fatal).
  - reflexivity.
  - reflexivity.
  - unfold term_set_size. simpl. lia.
Defined.

End SequenceExample.

(** [get_names] accumulates: called on a second registry with the output of
    a first one it yields the names of the first followed by the names of
    the second, after what was in [out]; with [enabled_only] set the number
    of names added is the sum of the two [num_enabled()], otherwise the sum
    of the two [size()]. *)
Theorem term_set_get_names_sequence :
  forall (T1 T2 : Type) (N1 : Named T1) (N2 : Named T2)
         (ts1 : term_set T1) (ts2 : term_set T2) (enabled_only : bool)
         (out : list string) (h : handler),
    length (enabled ts1) = length (fun_ ts1) ->
    length (enabled ts2) = length (fun_ ts2) ->
    let names1 :=
      map name_of (if enabled_only then select (enabled ts1) (fun_ ts1)
                   else fun_ ts1) in
    let names2 :=
      map name_of (if enabled_only then select (enabled ts2) (fun_ ts2)
                   else fun_ ts2) in
    exec h (o <- term_set_get_names ts1 enabled_only out ;;
            term_set_get_names ts2 enabled_only o)
    = ok (out ++ names1 ++ names2)
    /\ length (names1 ++ names2)
       = if enabled_only
         then term_set_num_enabled ts1 + term_set_num_enabled ts2
         else term_set_size ts1 + term_set_size ts2.
Proof.
  intros T1 T2 N1 N2 ts1 ts2 enabled_only out h H1 H2 names1 names2.
  split.
  - unfold term_set_get_names.
    rewrite H1, H2, !Nat.eqb_refl. simpl.
    rewrite get_names_loop_spec by (simpl; lia). simpl.
    rewrite get_names_loop_spec by (simpl; lia). simpl.
    now rewrite <- app_assoc.
  - unfold names1, names2, term_set_num_enabled, term_set_size.
    rewrite length_app, !length_map, !count_enabled. simpl.
    destruct enabled_only; [| reflexivity].
    rewrite !length_select by lia.
    reflexivity.
Qed.

Section NamesSequenceExample.
#[local] Existing Instance binary64.

Lemma term_set_get_names_sequence_witness :
  exec Fatal
    (o <- term_set_get_names example_registry true ["z"%string] ;;
     term_set_get_names negative_registry true o)
  = ok ["z"; "a"; "c"; "n"]%string.
Proof.
  apply (term_set_get_names_sequence (@usable_named bool) (@usable_named bool)
           example_registry negative_registry true ["z"%string] Fatal);
    reflexivity.
Defined.

End NamesSequenceExample.

(** ** The cutoff bound *)

Lemma fl_max_not_below_left (m c : fl) : fl_ltb (fl_max m c) m = false.
Proof.
  unfold fl_max.
  destruct (fl_ltb m c) eqn:Hlt.
  - exact (@fl_ltb_raise _ _ _ Hlt (fl_ltb_irrefl m)).
  - apply fl_ltb_irrefl.
Qed.

Lemma fl_max_not_below_right (m c : fl) : fl_ltb (fl_max m c) c = false.
Proof.
  unfold fl_max.
  destruct (fl_ltb m c) eqn:Hlt.
  - apply fl_ltb_irrefl.
  - exact Hlt.
Qed.

(** Adding a term can only raise [max_cutoff]: the new bound is the larger
    of the old bound and the cutoff of the new term, whatever the weight
    given to [add], so it is below neither of them. *)
Theorem term_set_max_cutoff_add :
  forall (T : Type) (HC : HasCutoff T) (ts : term_set T) (e0 : N) (f0 : T),
    term_set_max_cutoff (term_set_add e0 f0 ts)
      = fl_max (term_set_max_cutoff ts) (cutoff_of f0)
    /\ fl_ltb (term_set_max_cutoff (term_set_add e0 f0 ts))
              (term_set_max_cutoff ts) = false
    /\ fl_ltb (term_set_max_cutoff (term_set_add e0 f0 ts))
              (cutoff_of f0) = false.
Proof.
  intros T HC ts e0 f0.
  assert (Hadd : term_set_max_cutoff (term_set_add e0 f0 ts)
                 = fl_max (term_set_max_cutoff ts) (cutoff_of f0)).
  { unfold term_set_max_cutoff. simpl. now rewrite fold_left_app. }
  rewrite Hadd.
  refine (conj eq_refl (conj _ _)).
  - apply fl_max_not_below_left.
  - apply fl_max_not_below_right.
Qed.

Lemma fold_fl_max_skip_nan (l : flv) :
  forall tmp : fl,
    fold_left fl_max (filter (fun c => negb (fl_is_nan c)) l) tmp
    = fold_left fl_max l tmp.
Proof.
  induction l as [| c l IH]; intros tmp; simpl; [reflexivity |].
  destruct c as [s | s | | s m x]; simpl; try apply IH.
  assert (Hmax : fl_max tmp S754_nan = tmp).
  { unfold fl_max, fl_ltb, SFltb, SFcompare. now destruct tmp. }
  rewrite Hmax. apply IH.
Qed.

(** A term whose cutoff is NaN has no effect on [max_cutoff]: dropping
    every such term from the registry leaves the result as it is. *)
Theorem term_set_max_cutoff_skips_nan :
  forall (T : Type) (HC : HasCutoff T) (ts : term_set T) (en' : list bool),
    term_set_max_cutoff
      {| enabled := en';
         fun_ := filter (fun f => negb (fl_is_nan (cutoff_of f))) (fun_ ts) |}
    = term_set_max_cutoff ts.
Proof.
  intros T HC ts en'.
  rewrite !max_cutoff_fold. simpl.
  rewrite <- (fold_fl_max_skip_nan (map cutoff_of (fun_ ts))).
  f_equal.
  induction (fun_ ts) as [| f fs IH]; simpl; [reflexivity |].
  destruct (fl_is_nan (cutoff_of f)); simpl; now rewrite IH.
Qed.

(** * Further properties of the decomposition *)

(** On two atoms without charge a charge-dependent term is worth its
    type-only coefficient, provided this coefficient is not a zero and the
    three charge-scaled coefficients are finite. *)
Theorem charge_dependent_eval_uncharged :
  forall (F : fl_format) (smt : Type) (t : charge_dependent smt)
         (a b : atom_base smt) (r : fl),
    fl_is_zero (charge a) = true ->
    fl_is_zero (charge b) = true ->
    fl_is_zero (type_dependent_only (eval_components t (sm a) (sm b) r))
      = false ->
    forallb fl_is_finite
      (tl (coefficients (eval_components t (sm a) (sm b) r))) = true ->
    charge_dependent_eval t a b r
    = type_dependent_only (eval_components t (sm a) (sm b) r).
Proof.
  intros F smt t a b r Ha Hb Ht Hfin.
  unfold charge_dependent_eval.
  destruct (eval_components t (sm a) (sm b) r) as [ct ca cb cab].
  simpl in *.
  destruct (charge a) as [sa | | |]; try discriminate Ha.
  destruct (charge b) as [sb | | |]; try discriminate Hb.
  destruct ca as [s1 | | | s1 m1 x1]; try discriminate Hfin;
    destruct cb as [s2 | | | s2 m2 x2]; try discriminate Hfin;
    destruct cab as [s3 | | | s3 m3 x3]; try discriminate Hfin;
    destruct ct as [s0 | s0 | | s0 m0 x0]; try discriminate Ht;
    reflexivity.
Qed.

Section UnchargedExample.
#[local] Existing Instance binary64.

Lemma charge_dependent_eval_uncharged_witness :
  charge_dependent_eval (constant_term components_1234)
    {| sm := true; charge := fl_zero |}
    {| sm := false; charge := fl_zero |} (fl_lit 5 0)
  = fl_lit 1 0.
Proof.
  apply (@charge_dependent_eval_uncharged binary64 bool
           (constant_term components_1234)
           {| sm := true; charge := fl_zero |}
           {| sm := false; charge := fl_zero |} (fl_lit 5 0));
    reflexivity.
Defined.

End UnchargedExample.

Lemma fl_add_zero_l {F : fl_format} (x : fl) :
  x <> S754_zero true -> fl_add fl_zero x = x.
Proof.
  unfold fl_add, fl_zero.
  destruct x as [[|] | s | | s m ex]; simpl; intros H;
    try reflexivity; congruence.
Qed.

(** Accumulating into all-zero components gives back the components
    added, on either side, as long as none of their coefficients is the
    negative zero; a negative zero comes out as the positive one. *)
Theorem components_add_zero :
  forall (F : fl_format) (rhs : components),
    (Forall (fun x => x <> S754_zero true) (coefficients rhs) ->
     components_add components_zero rhs = rhs
     /\ components_add rhs components_zero = rhs)
    /\ fl_add fl_zero (S754_zero true) = fl_zero.
Proof.
  intros F rhs. split; [| reflexivity].
  intros Hnz.
  assert (Hl : components_add components_zero rhs = rhs).
  { destruct rhs as [ct ca cb cab].
    unfold coefficients in Hnz. simpl in Hnz.
    inversion Hnz as [| ? ? H0 Hnz1]; subst.
    inversion Hnz1 as [| ? ? H1 Hnz2]; subst.
    inversion Hnz2 as [| ? ? H2 Hnz3]; subst.
    inversion Hnz3 as [| ? ? H3 _]; subst.
    unfold components_add.
    f_equal; apply fl_add_zero_l; assumption. }
  split; [exact Hl |].
  rewrite components_add_comm. exact Hl.
Qed.

Section ZeroExample.
#[local] Existing Instance binary64.

Lemma components_add_zero_witness :
  components_add components_zero components_1234 = components_1234
  /\ components_add components_1234 components_zero = components_1234.
Proof.
  destruct (components_add_zero binary64 components_1234) as [H _].
  apply H.
  repeat constructor; discriminate.
Defined.

End ZeroExample.

(** * Further properties of the aggregate *)

Lemma terms_adds_registries (smt model atom_index : Type)
    (calls : list (N * term_ptr smt model atom_index)) :
  forall t0 : terms smt model atom_index,
    distance_additive_terms (terms_adds calls t0)
      = term_set_adds (distance_additive_calls calls)
          (distance_additive_terms t0)
    /\ usable_terms (terms_adds calls t0)
      = term_set_adds (usable_calls calls) (usable_terms t0)
    /\ additive_terms (terms_adds calls t0)
      = term_set_adds (additive_calls calls) (additive_terms t0)
    /\ intermolecular_terms (terms_adds calls t0)
      = term_set_adds (intermolecular_calls calls) (intermolecular_terms t0)
    /\ conf_independent_terms (terms_adds calls t0)
      = term_set_adds (conf_independent_calls calls)
          (conf_independent_terms t0).
Proof.
  induction calls as [| [w p] calls IH]; intros t0.
  - repeat split.
  - unfold terms_adds in *. simpl fold_left.
    destruct (IH (terms_add w p t0)) as (H1 & H2 & H3 & H4 & H5).
    rewrite H1, H2, H3, H4, H5.
    destruct p; repeat split.
Qed.

Lemma calls_partition (smt model atom_index : Type)
    (calls : list (N * term_ptr smt model atom_index)) :
  length (distance_additive_calls calls) + length (usable_calls calls)
  + length (additive_calls calls) + length (intermolecular_calls calls)
  + length (conf_independent_calls calls)
  = length calls.
Proof.
  induction calls as [| [w p] calls IH]; [reflexivity |].
  unfold distance_additive_calls, usable_calls, additive_calls,
    intermolecular_calls, conf_independent_calls in *.
  destruct p; simpl; lia.
Qed.

Lemma term_set_adds_new_size {T : Type} (calls : list (N * T)) :
  length (enabled (term_set_adds calls term_set_new)) = length calls
  /\ term_set_size (term_set_adds calls term_set_new) = length calls.
Proof.
  destruct (term_set_adds_app calls (@term_set_new T)) as [He Hf].
  unfold term_set_size. rewrite He, Hf. simpl.
  now rewrite !length_map.
Qed.

(** An aggregate populated by any sequence of [add] calls holds, in each
    of its five registries, exactly the calls of that kind in call order;
    every registry has as many flags as terms, and the five sizes add up to
    the number of calls. *)
Theorem terms_adds_partition :
  forall (smt model atom_index : Type)
         (calls : list (N * term_ptr smt model atom_index)),
    let t := terms_adds calls (terms_new smt model atom_index) in
    (distance_additive_terms t
       = term_set_adds (distance_additive_calls calls) term_set_new
     /\ usable_terms t = term_set_adds (usable_calls calls) term_set_new
     /\ additive_terms t = term_set_adds (additive_calls calls) term_set_new
     /\ intermolecular_terms t
        = term_set_adds (intermolecular_calls calls) term_set_new
     /\ conf_independent_terms t
        = term_set_adds (conf_independent_calls calls) term_set_new)
    /\ (length (enabled (distance_additive_terms t))
          = term_set_size (distance_additive_terms t)
        /\ length (enabled (usable_terms t)) = term_set_size (usable_terms t)
        /\ length (enabled (additive_terms t))
           = term_set_size (additive_terms t)
        /\ length (enabled (intermolecular_terms t))
           = term_set_size (intermolecular_terms t)
        /\ length (enabled (conf_independent_terms t))
           = term_set_size (conf_independent_terms t))
    /\ term_set_size (distance_additive_terms t)
       + term_set_size (usable_terms t)
       + term_set_size (additive_terms t)
       + term_set_size (intermolecular_terms t)
       + term_set_size (conf_independent_terms t)
       = length calls.
Proof.
  intros smt model atom_index calls t.
  destruct (terms_adds_registries calls (terms_new smt model atom_index))
    as (H1 & H2 & H3 & H4 & H5).
  fold t in H1, H2, H3, H4, H5. simpl in H1, H2, H3, H4, H5.
  split; [exact (conj H1 (conj H2 (conj H3 (conj H4 H5)))) |].
  rewrite H1, H2, H3, H4, H5.
  destruct (term_set_adds_new_size (distance_additive_calls calls)) as [E1 S1].
  destruct (term_set_adds_new_size (usable_calls calls)) as [E2 S2].
  destruct (term_set_adds_new_size (additive_calls calls)) as [E3 S3].
  destruct (term_set_adds_new_size (intermolecular_calls calls)) as [E4 S4].
  destruct (term_set_adds_new_size (conf_independent_calls calls)) as [E5 S5].
  rewrite E1, E2, E3, E4, E5, S1, S2, S3, S4, S5.
  split; [repeat split |].
  apply calls_partition.
Qed.

(** Two [add] calls with pointers of different kinds can be swapped: the
    order of registration matters within a kind only. *)
Theorem terms_add_commutes_across_kinds :
  forall (smt model atom_index : Type) (t : terms smt model atom_index)
         (e1 e2 : N) (p q : term_ptr smt model atom_index),
    kind_of p <> kind_of q ->
    terms_add e1 p (terms_add e2 q t) = terms_add e2 q (terms_add e1 p t).
Proof.
  intros smt model atom_index t e1 e2 p q Hkind.
  destruct p, q; simpl in Hkind; try reflexivity; congruence.
Qed.

Section CommuteExample.
#[local] Existing Instance binary64.

Lemma terms_add_commutes_across_kinds_witness :
  terms_add 1 (PUsable unit unit same_type_term)
    (terms_add 0 (PIntermolecular bool unit example_intermolecular)
       (terms_new bool unit unit))
  = terms_add 0 (PIntermolecular bool unit example_intermolecular)
      (terms_add 1 (PUsable unit unit same_type_term)
         (terms_new bool unit unit)).
Proof.
  apply terms_add_commutes_across_kinds.
  simpl. discriminate.
Defined.

End CommuteExample.

(** * Further properties of the factors *)

(** [num_weights()] covers both groups and is itself covered by [size()]:
    each group has at most [num_weights()] values, and [size()] lies
    between [num_weights()] and twice that; the two are zero together. *)
Theorem factors_num_weights_bounds :
  forall f : factors,
    length (e f) <= factors_num_weights f
    /\ length (i f) <= factors_num_weights f
    /\ factors_num_weights f <= factors_size f
    /\ factors_size f <= 2 * factors_num_weights f
    /\ (factors_num_weights f =? 0) = (factors_size f =? 0).
Proof.
  intros f.
  pose proof (factors_num_weights_max f) as Hmax.
  unfold factors_size.
  repeat split; try lia.
  destruct (factors_num_weights f =? 0) eqn:H0;
    [apply Nat.eqb_eq in H0 | apply Nat.eqb_neq in H0]; symmetry;
    [apply Nat.eqb_eq | apply Nat.eqb_neq]; lia.
Qed.
